(** * examples/colored_by_group.py: colouring words by group

    A shallow embedding of the two colour-function classes of the example,
    [SimpleGroupedColorFunc] and [GroupedColorFunc], and the properties of
    their word-to-colour resolution.

    - a Python [dict] that is only iterated ([color_to_words.items()]) is
      the list of its items in iteration order; its keys are pairwise
      distinct ([is_dict]);
    - a [dict] that is only written and read by key ([word_to_color]) is a
      [gmap string string];
    - [set(words)] is a [gset string];
    - a method runs on a heap holding the object's fields and the state of
      everything outside the object, and returns a value or raises. *)

From stdpp Require Import gmap strings list fin_maps.

(** ** Exceptions and results *)

(** The exceptions in play: the colour parser's failure on an identifier it
    does not know, the exhaustion of an iterator, and a callable that
    rejects its arguments. *)
Inductive exn : Type :=
  | InvalidColorSpec
  | StopIteration
  | TypeError.

#[export] Instance exn_eq_dec : EqDecision exn.
Proof. solve_decision. Defined.

Inductive result (A : Type) : Type :=
  | Ok (a : A)
  | Raise (e : exn).
Arguments Ok {A} a.
Arguments Raise {A} e.

#[export] Instance result_ret : MRet result := @Ok.
#[export] Instance result_bind : MBind result :=
  λ A B f m, match m with Ok a => f a | Raise e => Raise e end.

(** [next(it)] on an iterator given by the values it will yield. *)
Definition next {A : Type} (it : list A) : result A :=
  match it with
  | [] => Raise StopIteration
  | x :: _ => Ok x
  end.

(** [d.get(key, default)]. *)
Definition dict_get (d : gmap string string) (key dflt : string) : string :=
  default dflt (d !! key).

(** The items of a [dict] have pairwise distinct keys. *)
Definition is_dict {V : Type} (items : list (string * V)) : Prop :=
  NoDup items.*1.

(** ** Methods: state and exceptions *)

Section Methods.
Context {World : Type}.

(** The fields of the receiver and the state of the rest of the program
    (random generators and whatever else a colour function touches). *)
Record heap (Self : Type) : Type := Heap { self : Self; world : World }.
#[global] Arguments Heap {Self} self world.
#[global] Arguments self {Self} h.
#[global] Arguments world {Self} h.

Definition Meth (Self A : Type) : Type := heap Self → result A * heap Self.

Definition ret {Self A} (a : A) : Meth Self A := λ h, (Ok a, h).

Definition bind {Self A B} (m : Meth Self A) (k : A → Meth Self B)
  : Meth Self B :=
  λ h, match m h with
       | (Ok a, h') => k a h'
       | (Raise e, h') => (Raise e, h')
       end.

(** [self.field] *)
Definition getattr {Self A} (field : Self → A) : Meth Self A :=
  λ h, (Ok (field (self h)), h).

(** A pure computation that may raise. *)
Definition lift {Self A} (r : result A) : Meth Self A := λ h, (r, h).

(** [try: body  except exc: handler]; other exceptions propagate. *)
Definition try_except {Self A} (body : Meth Self A) (exc : exn)
    (handler : Meth Self A) : Meth Self A :=
  λ h, match body h with
       | (Raise e, h') =>
           if decide (e = exc) then handler h' else (Raise e, h')
       | ok => ok
       end.
End Methods.

Arguments heap World Self : clear implicits.
Arguments Meth World Self A : clear implicits.

Notation "'let*' x ':=' m 'in' k" := (bind m (λ x, k))
  (at level 10, x name, m at level 100, k at level 200, only parsing).

(** ** The two colour functions *)

Section ColoredByGroup.
(** Values of the keyword arguments the layout engine passes along
    ([font_size], [position], [orientation], [random_state], ...). *)
Variable Value : Type.
(** The state outside the colour function objects. *)
Variable World : Type.

Definition Kwargs : Type := gmap string Value.

(** A single-colour function: called with the word and the keyword
    arguments, it returns a colour or raises, and may advance state
    outside the resolver (a random generator). *)
Definition color_func : Type :=
  string → Kwargs → World → result string * World.

(** [wordcloud.get_single_color_func], imported by the example: it parses
    the colour identifier, raising when it cannot, and returns a function
    producing shades of that colour. *)
Variable get_single_color_func : string → result color_func.

(** [f(word, **kwargs)] for a colour function [f]: it has no reference to
    the receiver, so only the outside state changes. *)
Definition call_color_func {Self : Type} (f : color_func) (word : string)
    (kwargs : Kwargs) : Meth World Self string :=
  λ h, let (r, w') := f word kwargs (world h) in (r, Heap (self h) w').

(** *** class SimpleGroupedColorFunc *)

Record SimpleGroupedColorFunc : Type := {
  word_to_color : gmap string string;
  default_color : string
}.

(** [{word: color for (color, words) in items for word in words}] *)
Definition invert_groups (items : list (string * list string))
    (d : gmap string string) : gmap string string :=
  foldl (λ d '(color, words),
           foldl (λ d word, <[word := color]> d) d words)
        d items.

(** [SimpleGroupedColorFunc.__init__]: the inverted index and the default,
    stored as given. *)
Definition SimpleGroupedColorFunc_init
    (color_to_words : list (string * list string)) (default_color : string)
  : result SimpleGroupedColorFunc :=
  Ok {| word_to_color := invert_groups color_to_words ∅;
        default_color := default_color |}.

(** [SimpleGroupedColorFunc.__call__]:
    [self.word_to_color.get(word, self.default_color)]. *)
Definition SimpleGroupedColorFunc_call (word : string) (kwargs : Kwargs)
  : Meth World SimpleGroupedColorFunc string :=
  let* index := getattr word_to_color in
  let* dflt := getattr default_color in
  ret (dict_get index word dflt).

(** *** class GroupedColorFunc *)

Record GroupedColorFunc : Type := {
  color_func_to_words : list (color_func * gset string);
  default_color_func : color_func
}.

(** [GroupedColorFunc.__init__]: one colour function and one word set per
    item, in iteration order, then the default colour function; the first
    conversion that raises ends the construction. *)
Definition GroupedColorFunc_init
    (color_to_words : list (string * list string)) (default_color : string)
  : result GroupedColorFunc :=
  cftw ← mapM (λ '(color, words),
                 f ← get_single_color_func color;
                 mret (f, list_to_set (C := gset string) words))
              color_to_words;
  dcf ← get_single_color_func default_color;
  mret {| color_func_to_words := cftw; default_color_func := dcf |}.

(** [GroupedColorFunc.get_color_func]: [next] of the generator of the colour
    functions whose word set has the word, the default colour function on
    [StopIteration]. *)
Definition GroupedColorFunc_get_color_func (word : string)
  : Meth World GroupedColorFunc color_func :=
  try_except
    (let* cftw := getattr color_func_to_words in
     lift (next ((filter (λ p, word ∈ p.2) cftw).*1)))
    StopIteration
    (getattr default_color_func).

(** [GroupedColorFunc.__call__]:
    [self.get_color_func(word)(word, **kwargs)]. *)
Definition GroupedColorFunc_call (word : string) (kwargs : Kwargs)
  : Meth World GroupedColorFunc string :=
  let* f := GroupedColorFunc_get_color_func word in
  call_color_func f word kwargs.

End ColoredByGroup.

Arguments call_color_func {Value World Self} f word kwargs h.
Arguments SimpleGroupedColorFunc_call {Value World} word kwargs h.
Arguments GroupedColorFunc_init {Value World} get_single_color_func
  color_to_words default_color.
Arguments color_func_to_words {Value World} g.
Arguments default_color_func {Value World} g.
Arguments GroupedColorFunc_get_color_func {Value World} word h.
Arguments GroupedColorFunc_call {Value World} word kwargs h.

(** ** Vocabulary of the properties *)

(** The groups of the mapping that contain a word, in iteration order. *)
Definition groups_of (items : list (string * list string)) (word : string)
  : list (string * list string) :=
  filter (λ p, word ∈ p.2) items.

(** The colour of the first, and of the last, group containing the word. *)
Definition first_match (items : list (string * list string)) (word : string)
  : option string :=
  fst <$> head (groups_of items word).

Definition last_match (items : list (string * list string)) (word : string)
  : option string :=
  fst <$> last (groups_of items word).

(** The resolver of the design notes, in the specification's words: iterate
    the groups to find one the word is a member of, else the default. *)
Fixpoint first_match_or_default (items : list (string * list string))
    (dflt word : string) : string :=
  match items with
  | [] => dflt
  | (color, words) :: rest =>
      if decide (word ∈ words) then color
      else first_match_or_default rest dflt word
  end.

(** No word is a member of two groups. *)
Definition unambiguous (items : list (string * list string)) : Prop :=
  ∀ i j p q word,
    items !! i = Some p → items !! j = Some q →
    word ∈ p.2 → word ∈ q.2 → i = j.

(** Making calls one after the other on the same receiver: the results in
    order, and the heap after the last call. *)
Fixpoint call_each {World Self A : Type} (calls : list (Meth World Self A))
    (h : heap World Self) : list (result A) * heap World Self :=
  match calls with
  | [] => ([], h)
  | m :: calls' =>
      let (r, h') := m h in
      let (rs, h'') := call_each calls' h' in
      (r :: rs, h'')
  end.

(** Modelled from the spec: the rendering surface, which is not under src/,
    applying the colour that a colour function returns for a word.  By
    sections 4.1, 6 and 7 of the specification it validates the colour with
    its colour-parsing routine when it ultimately applies it, and fails with
    [InvalidColorSpec] on an identifier the routine cannot parse.  The
    routine is the parameter [parse_color]. *)
Definition apply_color {World Self Rgb : Type}
    (parse_color : string → result Rgb)
    (color_of_word : Meth World Self string) : Meth World Self Rgb :=
  let* color := color_of_word in
  lift (parse_color color).

(** A method that leaves the fields of its receiver as they were. *)
Definition keeps_self {World Self A : Type} (m : Meth World Self A) : Prop :=
  ∀ h, self (m h).2 = self h.

(** What [GroupedColorFunc.__init__] makes of one item of the mapping. *)
Definition converts {Value World : Type}
    (get_single_color_func : string → result (color_func Value World))
    (p : string * list string) (q : color_func Value World * gset string)
  : Prop :=
  get_single_color_func p.1 = Ok q.1 ∧ q.2 = list_to_set p.2.

(** ** A small instance to run the definitions on

    Keyword values are numbers, the outside state counts the calls made to
    colour functions, the empty identifier is the one the parser rejects and
    a colour function returns a light or a dark shade of its base colour by
    the parity of that count, rejecting the keyword ["bogus"]. *)

Definition sample_color_func (color : string) : color_func nat nat :=
  λ word kwargs calls,
    match kwargs !! "bogus" with
    | Some _ => (Raise TypeError, calls)
    | None =>
        (Ok (color +:+ (if Nat.even calls then "-light" else "-dark")),
         S calls)
    end.

Definition sample_single_color_func (color : string)
  : result (color_func nat nat) :=
  if decide (color = "") then Raise InvalidColorSpec
  else Ok (sample_color_func color).

(** The parser of the sample rendering surface: it rejects the identifier
    the sample factory rejects, and reads any other as a number. *)
Definition sample_parse_color (color : string) : result nat :=
  if decide (color = "") then Raise InvalidColorSpec
  else Ok (String.length color).

Definition sample_groups : list (string * list string) :=
  [("green", ["simple"; "easy"; "both"]); ("red", ["complex"; "hard"; "both"])].

(** What [GroupedColorFunc(sample_groups, "grey")] constructs. *)
Definition sample_grouped : GroupedColorFunc nat nat :=
  {| color_func_to_words :=
       [(sample_color_func "green", list_to_set ["simple"; "easy"; "both"]);
        (sample_color_func "red", list_to_set ["complex"; "hard"; "both"])];
     default_color_func := sample_color_func "grey" |}.

(** ** The script

    The module-level code of the example: its text, its mapping and
    default, and the colour function it registers.  A [str] is the sequence
    of the bytes of its UTF-8 encoding. *)

(** [str.lower()] on text whose characters outside ASCII have no case (in
    [text] these are no-break spaces): the letters A to Z become a to z and
    every other byte stays. *)
Definition lower_ascii (c : Ascii.ascii) : Ascii.ascii :=
  let n := Ascii.nat_of_ascii c in
  if (65 <=? n)%nat && (n <=? 90)%nat then Ascii.ascii_of_nat (n + 32)
  else c.

Fixpoint lower (s : string) : string :=
  match s with
  | EmptyString => EmptyString
  | String c s' => String (lower_ascii c) (lower s')
  end.

(** [w] is a prefix of [t]; [w] occurs in [t] as a contiguous piece. *)
Fixpoint is_prefix (w t : string) : bool :=
  match w, t with
  | EmptyString, _ => true
  | String c w', String c' t' => bool_decide (c = c') && is_prefix w' t'
  | String _ _, EmptyString => false
  end.

Fixpoint occurs_in (w t : string) : bool :=
  is_prefix w t ||
  match t with
  | EmptyString => false
  | String _ t' => occurs_in w t'
  end.

(** The groups pairwise share no word, checked group by group. *)
Fixpoint groups_disjoint (items : list (string * list string)) : Prop :=
  match items with
  | [] => True
  | (_, words) :: rest =>
      Forall (λ q, Forall (λ w, w ∉ q.2) words) rest ∧ groups_disjoint rest
  end.

Module Script.

Definition text : string := "SignalP
SIFT
TargetP
PolyPhen
MutationTaster
WoLF-PSORT
FOLDEF
MaxEnt
Dmutant
CADD
FoldX
PROVEAN
PolyPhen2
FIS
Mutationassessor.org 
SNAP2 
PMUT
AGGRESCAN
SNPs3D 
MutPred
A-GVGD
 SNPinfo/FuncPred 
Mupro
CHASM
Waltz
TANGO
CUPSAT
Eris
DFIRE
 PantherPSEC
MAPP
Zyggregator
PAGE
EGAD
SDM
PopMuSic
VAAST
PROFcon
CanPredict
FOLD-RATE
GWAVA 
SNPeffect
Scpred
nsSNPAnalyzer 
FoldAmyloid
Scide
KGGSeq
DBD-Hunter
PPT-DB
PON-P
Skippy
Saunders&Baker
TransComp
UMD-predictor
K-Fold
SAPred
LS-SNP/PDB
BeAtMuSiC
CoVEC 
Parepro
FATHmm
PASTA2
MutPredSplice
SNPdbe
transFIC 
VAAST2
SAAPdb
LocTree2
VEST
MultiMutate
SIFT-indel
Phen-Gen
AutoMute
MuStab
ASP/ASPex
SNPs&GO
PhD-SNP
DANN
FunSAV
MuX-48
MuX-S
HOPE
SInBaD
Eigen
EIGEN
Re-ID
NETdiseaseSNP
ProA
VEST-indel
Exomiser
CoDP
VarMod
SuRFR".

Definition color_to_words : list (string * list string) :=
  [("#00ff00", ["beautiful"; "explicit"; "simple"; "sparse";
                "readability"; "rules"; "practicality";
                "explicitly"; "one"; "now"; "easy"; "obvious"; "better"]);
   ("red", ["ugly"; "implicit"; "complex"; "complicated"; "nested";
            "dense"; "special"; "errors"; "silently"; "ambiguity";
            "guess"; "hard"])].

Definition default_color : string := "grey".

(** [grouped_color_func = GroupedColorFunc(color_to_words, default_color)] *)
Definition grouped_color_func {Value World : Type}
    (get_single_color_func : string → result (color_func Value World))
  : result (GroupedColorFunc Value World) :=
  GroupedColorFunc_init get_single_color_func color_to_words default_color.

End Script.

(** What [Script.grouped_color_func] constructs from the sample colour
    functions. *)
Definition sample_script_grouped : GroupedColorFunc nat nat :=
  {| color_func_to_words :=
       (λ p, (sample_color_func p.1, list_to_set p.2))
         <$> Script.color_to_words;
     default_color_func := sample_color_func "grey" |}.

(** * Properties *)

(** Closes a decidable goal on concrete data by evaluating its decision. *)
Ltac by_evaluation := apply (bool_decide_unpack _); vm_compute; exact I.

Section Index.
Implicit Types (items : list (string * list string)) (word color : string).
Implicit Types (d : gmap string string).

Lemma insert_words_lookup color (words : list string) d word :
  foldl (λ d word, <[word := color]> d) d words !! word
  = if decide (word ∈ words) then Some color else d !! word.
Proof.
  revert d. induction words as [|w words IH]; intros d; cbn [foldl].
  - by rewrite decide_False by apply not_elem_of_nil.
  - rewrite IH. destruct (decide (word ∈ words)) as [Hin|Hnin].
    + by rewrite decide_True by (by apply elem_of_cons; right).
    + destruct (decide (w = word)) as [->|Hne].
      * rewrite lookup_insert_eq.
        by rewrite decide_True by (by apply elem_of_cons; left).
      * rewrite lookup_insert_ne by done.
        rewrite decide_False; [done|].
        intros [?|?]%elem_of_cons; congruence.
Qed.

Lemma last_match_cons color (words : list string) items word :
  last_match ((color, words) :: items) word
  = match last_match items word with
    | Some c => Some c
    | None => if decide (word ∈ words) then Some color else None
    end.
Proof.
  unfold last_match, groups_of. rewrite filter_cons. simpl.
  destruct (decide (word ∈ words)); [|by destruct (last _)].
  rewrite last_cons. by destruct (last _).
Qed.

Lemma first_match_cons color (words : list string) items word :
  first_match ((color, words) :: items) word
  = if decide (word ∈ words) then Some color else first_match items word.
Proof.
  unfold first_match, groups_of. rewrite filter_cons. simpl.
  by destruct (decide (word ∈ words)).
Qed.

Lemma invert_groups_lookup items d word :
  invert_groups items d !! word
  = match last_match items word with
    | Some c => Some c
    | None => d !! word
    end.
Proof.
  revert d. induction items as [|[color words] items IH]; intros d.
  - done.
  - rewrite last_match_cons. unfold invert_groups in *. simpl.
    rewrite IH. destruct (last_match items word); [done|].
    rewrite insert_words_lookup. by destruct (decide (word ∈ words)).
Qed.

Lemma first_match_or_default_spec items dflt word :
  first_match_or_default items dflt word
  = default dflt (first_match items word).
Proof.
  induction items as [|[color words] items IH]; [done|].
  rewrite first_match_cons. simpl. by destruct (decide (word ∈ words)).
Qed.

Lemma groups_of_absent items word :
  Forall (λ p, word ∉ p.2) items → groups_of items word = [].
Proof.
  unfold groups_of. induction 1 as [|p items Hp _ IH]; [done|].
  by rewrite filter_cons_False.
Qed.

Lemma last_match_split before color (words : list string) after word :
  word ∈ words → Forall (λ p, word ∉ p.2) after →
  last_match (before ++ (color, words) :: after) word = Some color.
Proof.
  intros Hin Hafter. unfold last_match, groups_of.
  rewrite filter_app, filter_cons_True by done.
  fold (groups_of after word). rewrite groups_of_absent by done.
  by rewrite last_snoc.
Qed.

Lemma first_match_split before color (words : list string) after word :
  word ∈ words → Forall (λ p, word ∉ p.2) before →
  first_match (before ++ (color, words) :: after) word = Some color.
Proof.
  intros Hin Hbefore. unfold first_match, groups_of.
  rewrite filter_app, filter_cons_True by done.
  fold (groups_of before word). by rewrite groups_of_absent.
Qed.

Lemma match_absent items word :
  Forall (λ p, word ∉ p.2) items →
  first_match items word = None ∧ last_match items word = None.
Proof.
  intros H. unfold first_match, last_match. by rewrite groups_of_absent.
Qed.

Lemma unambiguous_first_last items word :
  unambiguous items → first_match items word = last_match items word.
Proof.
  induction items as [|[color words] items IH]; intros Hun; [done|].
  rewrite first_match_cons, last_match_cons.
  destruct (decide (word ∈ words)) as [Hin|Hnin].
  - assert (Habs : Forall (λ p, word ∉ p.2) items).
    { apply Forall_lookup_2. intros j q Hq Hw.
      by specialize (Hun 0 (S j) (color, words) q word eq_refl Hq Hin Hw). }
    apply match_absent in Habs as [_ ->]. done.
  - rewrite IH; [by destruct (last_match items word)|].
    intros i j p q w Hp Hq Hwp Hwq.
    by specialize (Hun (S i) (S j) p q w Hp Hq Hwp Hwq) as [= ->].
Qed.

End Index.

Section Resolution.
Context {Value World : Type}.
Variable get_single_color_func : string → result (color_func Value World).
Implicit Types (items : list (string * list string)) (word dflt : string).
Implicit Types (kwargs : Kwargs Value) (wd : World).
Implicit Types (s : SimpleGroupedColorFunc) (g : GroupedColorFunc Value World).

Lemma simple_call_run word kwargs (h : heap World _) :
  SimpleGroupedColorFunc_call word kwargs h
  = (Ok (dict_get (word_to_color (self h)) word (default_color (self h))), h).
Proof. reflexivity. Qed.

Lemma simple_resolve items dflt word kwargs wd :
  ∃ s, SimpleGroupedColorFunc_init items dflt = Ok s
       ∧ SimpleGroupedColorFunc_call word kwargs (Heap s wd)
         = (Ok (default dflt (last_match items word)), Heap s wd).
Proof.
  eexists. split; [reflexivity|].
  rewrite simple_call_run. cbn [self word_to_color default_color].
  unfold dict_get. rewrite invert_groups_lookup, lookup_empty.
  by destruct (last_match items word).
Qed.

Lemma get_color_func_run word (h : heap World (GroupedColorFunc Value World)) :
  GroupedColorFunc_get_color_func word h
  = (Ok (default (default_color_func (self h))
           (head (filter (λ p, word ∈ p.2)
                    (color_func_to_words (self h))).*1)), h).
Proof.
  unfold GroupedColorFunc_get_color_func, try_except, bind, getattr, lift.
  by destruct (filter _ _).
Qed.

Lemma grouped_call_run word kwargs
    (h : heap World (GroupedColorFunc Value World)) :
  ∃ f, GroupedColorFunc_get_color_func word h = (Ok f, h)
       ∧ GroupedColorFunc_call word kwargs h
         = call_color_func f word kwargs h.
Proof.
  eexists. split; [apply get_color_func_run|].
  unfold GroupedColorFunc_call, bind. by rewrite get_color_func_run.
Qed.

Lemma mapM_result_Ok {A B} (f : A → result B) (l : list A) (k : list B) :
  mapM f l = Ok k ↔ Forall2 (λ x y, f x = Ok y) l k.
Proof.
  revert k. induction l as [|x l IH]; intros k; simpl.
  - split; [by intros [= <-]; constructor|by inversion 1].
  - unfold mbind, result_bind at 1. destruct (f x) as [y|e] eqn:Hx.
    + unfold mbind, result_bind at 1.
      destruct (mapM f l) as [k'|e] eqn:Hl; simpl.
      * split.
        -- unfold mret, result_ret. intros [= <-].
           constructor; [done|]. by apply IH.
        -- inversion 1 as [|? y' ? k'' Hy Hk]; subst.
           apply IH in Hk. unfold mret, result_ret. congruence.
      * split; [done|]. inversion 1 as [|? y' ? k'' Hy Hk]; subst.
        apply IH in Hk. congruence.
    + split; [done|]. inversion 1; congruence.
Qed.

Lemma grouped_init_Ok items dflt g :
  GroupedColorFunc_init get_single_color_func items dflt = Ok g ↔
  Forall2 (converts get_single_color_func) items (color_func_to_words g)
  ∧ get_single_color_func dflt = Ok (default_color_func g).
Proof.
  unfold GroupedColorFunc_init.
  set (conv := λ '(color, words), _).
  assert (Hconv : ∀ k, mapM conv items = Ok k
                       ↔ Forall2 (converts get_single_color_func) items k).
  { intros k. rewrite mapM_result_Ok.
    split; intros H; eapply Forall2_impl; try exact H;
      intros [c ws] [f st]; unfold conv, converts; simpl;
      unfold mbind, result_bind, mret, result_ret;
      destruct (get_single_color_func c).
    - by intros [= -> ->].
    - done.
    - by intros [[= ->] ->].
    - by intros [? _]. }
  unfold mbind, result_bind at 1.
  destruct (mapM conv items) as [k|e] eqn:Hk.
  - unfold mbind, result_bind, mret, result_ret.
    destruct (get_single_color_func dflt) as [f|e]; destruct g as [k' f'];
      simpl; split.
    + intros [= <- <-]. split; [by apply Hconv|done].
    + intros [Hk' [= <-]]. apply Hconv in Hk'. congruence.
    + done.
    + by intros [_ ?].
  - split; [done|]. intros [Hk' _]. apply Hconv in Hk'. congruence.
Qed.

Lemma grouped_init_nil dflt :
  GroupedColorFunc_init get_single_color_func [] dflt
  = match get_single_color_func dflt with
    | Ok f => Ok {| color_func_to_words := []; default_color_func := f |}
    | Raise e => Raise e
    end.
Proof. reflexivity. Qed.

Lemma grouped_init_cons color (words : list string) items dflt :
  GroupedColorFunc_init get_single_color_func ((color, words) :: items) dflt
  = match get_single_color_func color with
    | Ok f =>
        match GroupedColorFunc_init get_single_color_func items dflt with
        | Ok g =>
            Ok {| color_func_to_words :=
                    (f, list_to_set words) :: color_func_to_words g;
                  default_color_func := default_color_func g |}
        | Raise e => Raise e
        end
    | Raise e => Raise e
    end.
Proof.
  unfold GroupedColorFunc_init. cbn [mapM].
  unfold mbind, result_bind, mret, result_ret.
  destruct (get_single_color_func color); [|done].
  destruct (mapM _ items); [|done].
  by destruct (get_single_color_func dflt).
Qed.

Lemma grouped_init_Raise items dflt e :
  GroupedColorFunc_init get_single_color_func items dflt = Raise e ↔
  ∃ ok c rest,
    items.*1 ++ [dflt] = ok ++ c :: rest
    ∧ Forall (λ c', ∃ f, get_single_color_func c' = Ok f) ok
    ∧ get_single_color_func c = Raise e.
Proof.
  induction items as [|[color words] items IH].
  - rewrite grouped_init_nil. split.
    + destruct (get_single_color_func dflt) eqn:Hd; [done|].
      intros [= ->]. by exists [], dflt, [].
    + intros (ok & c & rest & Hsplit & _ & Hc).
      destruct ok as [|? [|? ?]]; simplify_eq/=. by rewrite Hc.
  - rewrite grouped_init_cons. split.
    + destruct (get_single_color_func color) as [f|e'] eqn:Hcolor.
      * destruct (GroupedColorFunc_init _ items dflt); [done|].
        intros [= ->]. apply proj1 in IH.
        destruct (IH eq_refl) as (ok & c & rest & Hsplit & Hok & Hc).
        exists (color :: ok), c, rest.
        rewrite fmap_cons, <- !app_comm_cons, Hsplit.
        split; [done|]. split; [|done]. constructor; [by exists f|done].
      * intros [= ->]. by exists [], color, (items.*1 ++ [dflt]).
    + intros (ok & c & rest & Hsplit & Hok & Hc).
      destruct ok as [|c0 ok]; simplify_eq/=.
      * by rewrite Hc.
      * apply Forall_cons in Hok as [[f ->] Hok].
        apply proj2 in IH. rewrite IH; [done|].
        by exists ok, c, rest.
Qed.

Lemma converted_first items dflt word k f :
  Forall2 (converts get_single_color_func) items k →
  get_single_color_func dflt = Ok f →
  Ok (default f (head (filter (λ p, word ∈ p.2) k).*1))
  = get_single_color_func (first_match_or_default items dflt word).
Proof.
  intros Hk Hd. induction Hk as [|[c ws] [fc st] items k [Hc Hst] _ IH];
    simpl in *; [done|]. subst st.
  rewrite filter_cons. simpl.
  destruct (decide (word ∈ ws)) as [Hin|Hnin].
  - by rewrite decide_True by (by apply elem_of_list_to_set).
  - by rewrite decide_False by (by rewrite elem_of_list_to_set).
Qed.

Lemma grouped_select items dflt g word wd :
  GroupedColorFunc_init get_single_color_func items dflt = Ok g →
  GroupedColorFunc_get_color_func word (Heap g wd)
  = (get_single_color_func (first_match_or_default items dflt word),
     Heap g wd).
Proof.
  intros [Hk Hd]%grouped_init_Ok. rewrite get_color_func_run.
  cbn [self]. f_equal. by apply converted_first.
Qed.

Lemma call_each_keeps_self {Self A : Type} (calls : list (Meth World Self A)) h :
  Forall keeps_self calls → self (call_each calls h).2 = self h.
Proof.
  intros Hcalls. revert h.
  induction Hcalls as [|m calls Hm _ IH]; intros h; [done|].
  cbn [call_each]. specialize (Hm h). destruct (m h) as [r h'].
  specialize (IH h'). destruct (call_each calls h') as [rs h''].
  simpl in *. congruence.
Qed.

Lemma simple_call_keeps_self word kwargs :
  keeps_self (World := World) (SimpleGroupedColorFunc_call word kwargs).
Proof. by intros h. Qed.

Lemma get_color_func_keeps_self word :
  keeps_self (World := World)
    (GroupedColorFunc_get_color_func (Value := Value) word).
Proof. intros h. by rewrite get_color_func_run. Qed.

Lemma call_color_func_keeps_self {Self : Type} f word kwargs :
  keeps_self (World := World) (call_color_func (Self := Self) f word kwargs).
Proof.
  intros h. unfold call_color_func. by destruct (f word kwargs (world h)).
Qed.

Lemma grouped_call_keeps_self word kwargs :
  keeps_self (World := World)
    (GroupedColorFunc_call (Value := Value) word kwargs).
Proof.
  intros h. destruct (grouped_call_run word kwargs h) as (f & _ & ->).
  apply call_color_func_keeps_self.
Qed.

End Resolution.

Section Claims.
Context {Value World : Type}.
Variable get_single_color_func : string → result (color_func Value World).
Implicit Types (items : list (string * list string)) (word dflt : string).
Implicit Types (kwargs : Kwargs Value) (wd : World).
Implicit Types (s : SimpleGroupedColorFunc) (g : GroupedColorFunc Value World).

(** C1. A word that is a member of exactly one group of the mapping resolves
    to that group's colour: the simple variant returns the group's colour
    identifier, the shade-aware variant selects, and then calls, the colour
    function made from that identifier; this on every call, whatever the
    keyword arguments and the outside state. *)
Theorem unique_group_color before color (words : list string) after dflt word :
  word ∈ words →
  Forall (λ p, word ∉ p.2) (before ++ after) →
  (∃ s, SimpleGroupedColorFunc_init (before ++ (color, words) :: after) dflt
        = Ok s
        ∧ ∀ kwargs wd,
            SimpleGroupedColorFunc_call word kwargs (Heap s wd)
            = (Ok color, Heap s wd))
  ∧ (∀ g, GroupedColorFunc_init get_single_color_func
            (before ++ (color, words) :: after) dflt = Ok g →
          ∃ f, get_single_color_func color = Ok f
               ∧ ∀ kwargs wd,
                   GroupedColorFunc_get_color_func word (Heap g wd)
                   = (Ok f, Heap g wd)
                   ∧ GroupedColorFunc_call word kwargs (Heap g wd)
                     = call_color_func f word kwargs (Heap g wd)).
Proof.
  intros Hin [Hbefore Hafter]%Forall_app. split.
  - eexists. split; [reflexivity|]. intros kwargs wd.
    destruct (simple_resolve (before ++ (color, words) :: after)
                dflt word kwargs wd) as (s & [= <-] & ->).
    by rewrite last_match_split.
  - intros g Hg.
    assert (Hsel := λ wd, grouped_select _ _ _ _ word wd Hg).
    rewrite first_match_or_default_spec, first_match_split in Hsel by done.
    simpl in Hsel.
    destruct (get_single_color_func color) as [f|e] eqn:Hf.
    + exists f. split; [done|]. intros kwargs wd. split; [apply Hsel|].
      unfold GroupedColorFunc_call, bind. by rewrite Hsel.
    + exfalso. destruct g as [k fd].
      apply grouped_init_Ok in Hg as [Hk _].
      apply Forall2_app_inv_l in Hk as (k1 & k2 & _ & Hk2 & _).
      inversion Hk2 as [|? q ? ? [Hq _]]; subst. simpl in Hq. congruence.
Qed.

(** C2. A word that is a member of no group (in particular any word, when
    the mapping is empty) resolves to the default: the simple variant
    returns the default colour identifier, the shade-aware variant selects,
    and then calls, the default colour function; this on every call. *)
Theorem absent_word_default items dflt word :
  Forall (λ p, word ∉ p.2) items →
  (∃ s, SimpleGroupedColorFunc_init items dflt = Ok s
        ∧ ∀ kwargs wd,
            SimpleGroupedColorFunc_call word kwargs (Heap s wd)
            = (Ok dflt, Heap s wd))
  ∧ (∀ g, GroupedColorFunc_init get_single_color_func items dflt = Ok g →
          get_single_color_func dflt = Ok (default_color_func g)
          ∧ ∀ kwargs wd,
              GroupedColorFunc_get_color_func word (Heap g wd)
              = (Ok (default_color_func g), Heap g wd)
              ∧ GroupedColorFunc_call word kwargs (Heap g wd)
                = call_color_func (default_color_func g) word kwargs
                    (Heap g wd)).
Proof.
  intros [Hfirst Hlast]%match_absent. split.
  - eexists. split; [reflexivity|]. intros kwargs wd.
    destruct (simple_resolve items dflt word kwargs wd) as (s & [= <-] & ->).
    by rewrite Hlast.
  - intros g Hg.
    assert (Hsel := λ wd, grouped_select _ _ _ _ word wd Hg).
    rewrite first_match_or_default_spec, Hfirst in Hsel. simpl in Hsel.
    apply grouped_init_Ok in Hg as [_ Hd]. rewrite Hd in Hsel.
    split; [done|]. intros kwargs wd. split; [apply Hsel|].
    unfold GroupedColorFunc_call, bind. by rewrite Hsel.
Qed.

(** C3, as amended. The index of the simple variant holds, for every word,
    the colour of the last group containing it in the iteration order of
    the mapping (and nothing for a word of no group), so the simple variant
    resolves a word of several groups to the colour of the last of them.
    The shade-aware variant builds no such index: it selects the colour
    function made for the first group containing the word. *)
Theorem last_write_wins_simple_only items dflt word :
  (∃ s, SimpleGroupedColorFunc_init items dflt = Ok s
        ∧ word_to_color s !! word = last_match items word
        ∧ ∀ kwargs wd,
            SimpleGroupedColorFunc_call word kwargs (Heap s wd)
            = (Ok (default dflt (last_match items word)), Heap s wd))
  ∧ (∀ g wd, GroupedColorFunc_init get_single_color_func items dflt = Ok g →
       GroupedColorFunc_get_color_func word (Heap g wd)
       = (get_single_color_func (default dflt (first_match items word)),
          Heap g wd)).
Proof.
  split.
  - eexists. split; [reflexivity|]. split.
    + cbn [word_to_color]. rewrite invert_groups_lookup, lookup_empty.
      by destruct (last_match items word).
    + intros kwargs wd.
      by destruct (simple_resolve items dflt word kwargs wd)
        as (s & [= <-] & ->).
  - intros g wd Hg. rewrite <- first_match_or_default_spec.
    by apply grouped_select.
Qed.

(** C4. The shade-aware variant validates at construction: it converts the
    colour identifiers of the mapping in iteration order and then the
    default, and raises what the first failing conversion raises, so an
    identifier the parser rejects with [InvalidColorSpec] fails the
    construction.  The simple variant is constructed whatever the
    identifiers are and stores them as they are: its default is the given
    identifier and its index holds, for each word, the identifier of the
    last group containing it, unparsed.  Resolution hands that identifier
    out without raising, so the failure surfaces only when the rendering
    surface applies the colour, and then it is what the surface's parser
    raises on the resolved identifier.  Where factory and parser reject the
    same identifiers, a rejection met when applying a colour of the simple
    variant is one the shade-aware construction already raised. *)
Theorem eager_and_lazy_validation {Rgb : Type}
    (parse_color : string → result Rgb) items dflt :
  (∀ e, GroupedColorFunc_init get_single_color_func items dflt = Raise e ↔
        ∃ ok c rest,
          items.*1 ++ [dflt] = ok ++ c :: rest
          ∧ Forall (λ c', ∃ f, get_single_color_func c' = Ok f) ok
          ∧ get_single_color_func c = Raise e)
  ∧ (∀ c, c ∈ items.*1 ++ [dflt] →
          get_single_color_func c = Raise InvalidColorSpec →
          (∀ c' e, get_single_color_func c' = Raise e → e = InvalidColorSpec) →
          GroupedColorFunc_init get_single_color_func items dflt
          = Raise InvalidColorSpec)
  ∧ (∃ s, SimpleGroupedColorFunc_init items dflt = Ok s
          ∧ default_color s = dflt
          ∧ (∀ word, word_to_color s !! word = last_match items word)
          ∧ (∀ word c, word_to_color s !! word = Some c → c ∈ items.*1)
          ∧ ∀ word kwargs wd,
              SimpleGroupedColorFunc_call word kwargs (Heap s wd)
              = (Ok (default dflt (last_match items word)), Heap s wd)
              ∧ default dflt (last_match items word) ∈ items.*1 ++ [dflt]
              ∧ apply_color parse_color
                  (SimpleGroupedColorFunc_call word kwargs) (Heap s wd)
                = (parse_color (default dflt (last_match items word)),
                   Heap s wd))
  ∧ (∀ word,
       (∀ c, get_single_color_func c = Raise InvalidColorSpec
             ↔ parse_color c = Raise InvalidColorSpec) →
       (∀ c e, get_single_color_func c = Raise e → e = InvalidColorSpec) →
       parse_color (default dflt (last_match items word))
       = Raise InvalidColorSpec →
       GroupedColorFunc_init get_single_color_func items dflt
       = Raise InvalidColorSpec).
Proof.
  assert (Hlast : ∀ word c, last_match items word = Some c → c ∈ items.*1).
  { intros word c. unfold last_match.
    destruct (last (groups_of items word)) as [p|] eqn:Hp; [|done].
    intros [= <-]. apply last_Some_elem_of in Hp.
    apply list_elem_of_filter in Hp as [_ Hp]. by apply list_elem_of_fmap_2. }
  assert (Hresolved : ∀ word,
             default dflt (last_match items word) ∈ items.*1 ++ [dflt]).
  { intros word. destruct (last_match items word) eqn:Hw; simpl.
    - apply elem_of_app. left. eauto.
    - apply elem_of_app. right. by apply list_elem_of_singleton. }
  assert (Heager : ∀ c, c ∈ items.*1 ++ [dflt] →
             get_single_color_func c = Raise InvalidColorSpec →
             (∀ c' e, get_single_color_func c' = Raise e
                      → e = InvalidColorSpec) →
             GroupedColorFunc_init get_single_color_func items dflt
             = Raise InvalidColorSpec).
  { intros c Hc Hraise Honly.
    destruct (GroupedColorFunc_init _ items dflt) as [g|e] eqn:Hinit.
    + exfalso. apply grouped_init_Ok in Hinit as [Hk Hd].
      apply elem_of_app in Hc as [Hc|Hc%list_elem_of_singleton];
        [|congruence].
      apply list_elem_of_fmap in Hc as (p & -> & Hp).
      apply list_elem_of_lookup in Hp as [i Hi].
      destruct (Forall2_lookup_l _ _ _ _ _ Hk Hi) as (q & _ & Hq & _).
      congruence.
    + apply grouped_init_Raise in Hinit as (_ & c' & _ & _ & _ & Hc').
      by rewrite (Honly _ _ Hc'). }
  assert (Hindex : ∀ word,
             invert_groups items ∅ !! word = last_match items word).
  { intros word. rewrite invert_groups_lookup, lookup_empty.
    by destruct (last_match items word). }
  split; [intros e; apply grouped_init_Raise|].
  split; [exact Heager|]. split.
  - eexists. split; [reflexivity|]. split; [done|].
    split; [exact Hindex|]. split.
    + intros word c. cbn [word_to_color]. rewrite Hindex. apply Hlast.
    + intros word kwargs wd.
      destruct (simple_resolve items dflt word kwargs wd)
        as (s & [= <-] & Hcall).
      split; [exact Hcall|]. split; [apply Hresolved|].
      unfold apply_color, bind, lift. by rewrite Hcall.
  - intros word Hsame Honly Hparse.
    apply (Heager (default dflt (last_match items word)));
      [apply Hresolved|by apply Hsame|exact Honly].
Qed.

(** C5. Resolution is stable under repetition.  In the simple variant any
    number of calls in a row with the same word and keyword arguments all
    return the same value.  In the shade-aware variant the same runs of
    calls are calls of one and the same colour function, the one
    [get_color_func] selects for the word before the first call and still
    selects after the last, whatever shades that function returns. *)
Theorem repeated_resolution_stable word kwargs n :
  (∀ s wd, ∃ v,
      call_each (replicate n (SimpleGroupedColorFunc_call word kwargs))
        (Heap s wd)
      = (replicate n (Ok v), Heap s wd))
  ∧ (∀ g wd, ∃ f,
      GroupedColorFunc_get_color_func word (Heap g wd) = (Ok f, Heap g wd)
      ∧ call_each (replicate n (GroupedColorFunc_call word kwargs))
          (Heap g wd)
        = call_each (replicate n (call_color_func f word kwargs))
            (Heap g wd)
      ∧ ∀ h', (call_each (replicate n (GroupedColorFunc_call word kwargs))
                 (Heap g wd)).2 = h' →
              GroupedColorFunc_get_color_func word h' = (Ok f, h')).
Proof.
  split.
  - intros s wd. eexists. induction n as [|n' IH]; [done|].
    cbn [replicate call_each]. rewrite simple_call_run, IH. done.
  - intros g wd.
    destruct (grouped_call_run word kwargs (Heap g wd)) as (f & Hf & _).
    exists f. split; [done|].
    assert (Hsame : ∀ wd', GroupedColorFunc_call word kwargs (Heap g wd')
                           = call_color_func f word kwargs (Heap g wd')).
    { intros wd'.
      destruct (grouped_call_run word kwargs (Heap g wd')) as (f' & Hf' & ->).
      rewrite get_color_func_run in Hf, Hf'. cbn [self] in *. congruence. }
    assert (Hrun : ∀ wd',
               call_each (replicate n (GroupedColorFunc_call word kwargs))
                 (Heap g wd')
               = call_each (replicate n (call_color_func f word kwargs))
                   (Heap g wd')).
    { induction n as [|n' IH]; intros wd'; [done|].
      cbn [replicate call_each]. rewrite Hsame.
      pose proof (call_color_func_keeps_self f word kwargs (Heap g wd'))
        as Hkeep.
      destruct (call_color_func f word kwargs (Heap g wd')) as [r [g' wd'']].
      simpl in Hkeep. subst g'. by rewrite IH. }
    split; [apply Hrun|]. intros h' <-.
    rewrite get_color_func_run in Hf |- *. f_equal.
    rewrite call_each_keeps_self
      by (apply Forall_replicate, grouped_call_keeps_self).
    cbn [self] in *. congruence.
Qed.

(** C6. When no word is a member of two groups, the flat lookup in the
    index built at construction (the simple variant) returns, for every
    word, the identifier that iterating the groups for a first match, else
    the default, finds; and the colour function the shade-aware variant
    selects by such an iteration is the one made for that identifier. *)
Theorem flat_lookup_is_first_match items dflt word :
  unambiguous items →
  (∃ s, SimpleGroupedColorFunc_init items dflt = Ok s
        ∧ ∀ kwargs wd,
            SimpleGroupedColorFunc_call word kwargs (Heap s wd)
            = (Ok (first_match_or_default items dflt word), Heap s wd))
  ∧ (∀ g wd, GroupedColorFunc_init get_single_color_func items dflt = Ok g →
       GroupedColorFunc_get_color_func word (Heap g wd)
       = (get_single_color_func (first_match_or_default items dflt word),
          Heap g wd)).
Proof.
  intros Hun. split.
  - eexists. split; [reflexivity|]. intros kwargs wd.
    destruct (simple_resolve items dflt word kwargs wd) as (s & [= <-] & ->).
    by rewrite first_match_or_default_spec, unambiguous_first_last.
  - intros g wd Hg. by apply grouped_select.
Qed.

(** C7. The keyword arguments have no bearing on the choice of colour: the
    simple variant returns the same value under any two sets of keyword
    arguments, and the shade-aware variant selects one colour function for
    the word, which it then calls whatever the keyword arguments and the
    outside state are. *)
Theorem metadata_ignored word :
  (∀ kwargs1 kwargs2 (h : heap World SimpleGroupedColorFunc),
      SimpleGroupedColorFunc_call word kwargs1 h
      = SimpleGroupedColorFunc_call word kwargs2 h)
  ∧ (∀ g, ∃ f, ∀ kwargs wd,
      GroupedColorFunc_get_color_func word (Heap g wd) = (Ok f, Heap g wd)
      ∧ GroupedColorFunc_call word kwargs (Heap g wd)
        = call_color_func f word kwargs (Heap g wd)).
Proof.
  split; [done|]. intros g.
  exists (default (default_color_func g)
            (head (filter (λ p, word ∈ p.2) (color_func_to_words g)).*1)).
  intros kwargs wd. split; [apply get_color_func_run|].
  unfold GroupedColorFunc_call, bind. by rewrite get_color_func_run.
Qed.

(** C8. Construction and resolution in the simple variant are total: the
    constructor returns a resolver for every mapping and default, and
    [__call__] returns a value, and raises nothing, for every resolver,
    word and keyword arguments. *)
Theorem simple_resolution_total :
  (∀ items dflt, ∃ s, SimpleGroupedColorFunc_init items dflt = Ok s)
  ∧ (∀ word kwargs (h : heap World SimpleGroupedColorFunc),
       ∃ v, SimpleGroupedColorFunc_call word kwargs h = (Ok v, h)).
Proof. split; [by eexists|]. intros word kwargs h. by eexists. Qed.

(** C9. No query changes the resolver: after [__call__] of either variant,
    after [get_color_func], and after any sequence of queries, every field
    of the receiver is what it was before. *)
Theorem resolver_never_mutated :
  (∀ word kwargs (h : heap World SimpleGroupedColorFunc),
      self (SimpleGroupedColorFunc_call word kwargs h).2 = self h)
  ∧ (∀ word (h : heap World (GroupedColorFunc Value World)),
      self (GroupedColorFunc_get_color_func word h).2 = self h)
  ∧ (∀ word kwargs (h : heap World (GroupedColorFunc Value World)),
      self (GroupedColorFunc_call word kwargs h).2 = self h)
  ∧ (∀ (queries : list (string * Kwargs Value))
       (h : heap World SimpleGroupedColorFunc),
      self (call_each
              ((λ q, SimpleGroupedColorFunc_call q.1 q.2) <$> queries) h).2
      = self h)
  ∧ (∀ (queries : list (string * Kwargs Value))
       (h : heap World (GroupedColorFunc Value World)),
      self (call_each
              ((λ q, GroupedColorFunc_call q.1 q.2) <$> queries) h).2
      = self h).
Proof.
  split; [done|].
  split; [intros; apply get_color_func_keeps_self|].
  split; [intros; apply grouped_call_keeps_self|].
  split; intros queries h; apply call_each_keeps_self, Forall_fmap,
    Forall_forall; intros q _.
  - apply simple_call_keeps_self.
  - apply grouped_call_keeps_self.
Qed.

(** C10. For a word that is a member of several groups, the shade-aware
    variant selects the colour function of the first of them in the
    iteration order of the mapping, while the simple variant returns the
    colour of the last; the keys of a mapping being distinct, the two
    variants choose different groups. *)
Theorem first_match_wins_shade_aware before color1 (words1 : list string) mid
    color2 (words2 : list string) after dflt word g :
  is_dict (before ++ (color1, words1) :: mid ++ (color2, words2) :: after) →
  word ∈ words1 → word ∈ words2 →
  Forall (λ p, word ∉ p.2) before → Forall (λ p, word ∉ p.2) after →
  GroupedColorFunc_init get_single_color_func
    (before ++ (color1, words1) :: mid ++ (color2, words2) :: after) dflt
  = Ok g →
  (∃ f, get_single_color_func color1 = Ok f
        ∧ ∀ wd, GroupedColorFunc_get_color_func word (Heap g wd)
                = (Ok f, Heap g wd))
  ∧ (∃ s, SimpleGroupedColorFunc_init
            (before ++ (color1, words1) :: mid ++ (color2, words2) :: after)
            dflt = Ok s
          ∧ ∀ kwargs wd,
              SimpleGroupedColorFunc_call word kwargs (Heap s wd)
              = (Ok color2, Heap s wd))
  ∧ color1 ≠ color2.
Proof.
  intros Hdict Hin1 Hin2 Hbefore Hafter Hg. split; [|split].
  - assert (Hsel := λ wd, grouped_select _ _ _ _ word wd Hg).
    rewrite first_match_or_default_spec, first_match_split in Hsel by done.
    simpl in Hsel.
    destruct (get_single_color_func color1) as [f|e] eqn:Hf.
    + by exists f.
    + exfalso. apply grouped_init_Ok in Hg as [Hk _].
      apply Forall2_app_inv_l in Hk as (k1 & k2 & _ & Hk2 & _).
      inversion Hk2 as [|? q ? ? [Hq _]]; subst. simpl in Hq. congruence.
  - eexists. split; [reflexivity|]. intros kwargs wd.
    destruct (simple_resolve
                (before ++ (color1, words1) :: mid ++ (color2, words2) :: after)
                dflt word kwargs wd) as (s & [= <-] & ->).
    replace (before ++ (color1, words1) :: mid ++ (color2, words2) :: after)
      with ((before ++ (color1, words1) :: mid) ++ (color2, words2) :: after)
      by (by rewrite <- app_assoc).
    by rewrite last_match_split.
  - intros <-. unfold is_dict in Hdict.
    rewrite fmap_app, fmap_cons, fmap_app, fmap_cons in Hdict.
    apply NoDup_app in Hdict as (_ & _ & Hdict).
    apply NoDup_cons in Hdict as [Hnin _]. apply Hnin.
    apply elem_of_app. right. by left.
Qed.

End Claims.

(** ** The properties on the sample instance *)

Example sample_grouped_constructed :
  GroupedColorFunc_init sample_single_color_func sample_groups "grey"
  = Ok sample_grouped.
Proof. reflexivity. Qed.

Example scenario_simple :
  ∃ s, SimpleGroupedColorFunc_init sample_groups "grey" = Ok s
       ∧ (SimpleGroupedColorFunc_call (Value := nat) "simple" ∅ (Heap s 0)).1
         = Ok "green"
       ∧ (SimpleGroupedColorFunc_call (Value := nat) "complex" ∅ (Heap s 0)).1
         = Ok "red"
       ∧ (SimpleGroupedColorFunc_call (Value := nat) "banana" ∅ (Heap s 0)).1
         = Ok "grey"
       ∧ (SimpleGroupedColorFunc_call (Value := nat) "both" ∅ (Heap s 0)).1
         = Ok "red".
Proof. eexists. split; [reflexivity|]. by vm_compute. Qed.

Example scenario_shade_aware :
  (call_each
     [GroupedColorFunc_call "simple" ∅; GroupedColorFunc_call "easy" ∅;
      GroupedColorFunc_call "hard" ∅; GroupedColorFunc_call "banana" ∅;
      GroupedColorFunc_call "banana" (<["bogus" := 1]> ∅)]
     (Heap sample_grouped 0)).1
  = [Ok "green-light"; Ok "green-dark"; Ok "red-light"; Ok "grey-dark";
     Raise TypeError].
Proof. by vm_compute. Qed.

Example shades_vary_between_calls :
  (call_each (replicate 2 (GroupedColorFunc_call "simple" ∅))
     (Heap sample_grouped 0)).1
  = [Ok "green-light"; Ok "green-dark"].
Proof. by vm_compute. Qed.

Example rejected_identifier_at_construction :
  GroupedColorFunc_init sample_single_color_func
    [("green", ["simple"]); ("", ["hard"])] "grey" = Raise InvalidColorSpec
  ∧ GroupedColorFunc_init sample_single_color_func sample_groups ""
    = Raise InvalidColorSpec
  ∧ ∃ s, SimpleGroupedColorFunc_init [("green", ["simple"]); ("", ["hard"])] ""
         = Ok s
         ∧ (SimpleGroupedColorFunc_call (Value := nat) "hard" ∅ (Heap s 0)).1
           = Ok "".
Proof.
  split; [reflexivity|]. split; [reflexivity|].
  eexists. split; [reflexivity|]. by vm_compute.
Qed.

(** ** The theorems at concrete inputs *)

Lemma unique_group_color_witness :
  (∃ s, SimpleGroupedColorFunc_init sample_groups "grey" = Ok s
        ∧ ∀ (kwargs : Kwargs nat) (wd : nat),
            SimpleGroupedColorFunc_call "simple" kwargs (Heap s wd)
            = (Ok "green", Heap s wd))
  ∧ (∀ g, GroupedColorFunc_init sample_single_color_func sample_groups "grey"
          = Ok g →
          ∃ f, sample_single_color_func "green" = Ok f
               ∧ ∀ kwargs wd,
                   GroupedColorFunc_get_color_func "simple" (Heap g wd)
                   = (Ok f, Heap g wd)
                   ∧ GroupedColorFunc_call "simple" kwargs (Heap g wd)
                     = call_color_func f "simple" kwargs (Heap g wd)).
Proof.
  apply (unique_group_color sample_single_color_func
           [] "green" ["simple"; "easy"; "both"]
           [("red", ["complex"; "hard"; "both"])] "grey" "simple");
    by_evaluation.
Defined.

Lemma absent_word_default_witness :
  (∃ s, SimpleGroupedColorFunc_init [] "blue" = Ok s
        ∧ ∀ (kwargs : Kwargs nat) (wd : nat),
            SimpleGroupedColorFunc_call "anything" kwargs (Heap s wd)
            = (Ok "blue", Heap s wd))
  ∧ (∀ g, GroupedColorFunc_init sample_single_color_func [] "blue" = Ok g →
          sample_single_color_func "blue" = Ok (default_color_func g)
          ∧ ∀ kwargs wd,
              GroupedColorFunc_get_color_func "anything" (Heap g wd)
              = (Ok (default_color_func g), Heap g wd)
              ∧ GroupedColorFunc_call "anything" kwargs (Heap g wd)
                = call_color_func (default_color_func g) "anything" kwargs
                    (Heap g wd)).
Proof.
  apply (absent_word_default sample_single_color_func [] "blue" "anything").
  by_evaluation.
Defined.

(** C3, as stated, fails in the shade-aware variant: in
    [{"green": [.., "both"], "red": [.., "both"]}] the last group containing
    ["both"] is the red one, and [GroupedColorFunc] answers with a shade from
    the green colour function, not from the red one. *)
Lemma shade_aware_not_last_write_wins :
  is_dict sample_groups
  ∧ last_match sample_groups "both" = Some "red"
  ∧ ∃ g f_red,
      GroupedColorFunc_init sample_single_color_func sample_groups "grey"
      = Ok g
      ∧ sample_single_color_func "red" = Ok f_red
      ∧ GroupedColorFunc_call "both" ∅ (Heap g 0)
        = (Ok "green-light", Heap g 1)
      ∧ call_color_func f_red "both" ∅ (Heap g 0)
        = (Ok "red-light", Heap g 1)
      ∧ GroupedColorFunc_get_color_func "both" (Heap g 0)
        ≠ (Ok f_red, Heap g 0).
Proof.
  split; [by_evaluation|]. split; [by vm_compute|].
  exists sample_grouped, (sample_color_func "red").
  split; [reflexivity|]. split; [reflexivity|].
  split; [by vm_compute|]. split; [by vm_compute|].
  rewrite get_color_func_run. intros [= Hf].
  apply (f_equal (λ f : color_func nat nat, (f "both" ∅ 0).1)) in Hf.
  vm_compute in Hf. discriminate Hf.
Qed.

Lemma last_write_wins_simple_only_witness :
  (∃ s, SimpleGroupedColorFunc_init sample_groups "grey" = Ok s
        ∧ word_to_color s !! "both" = last_match sample_groups "both"
        ∧ ∀ (kwargs : Kwargs nat) (wd : nat),
            SimpleGroupedColorFunc_call "both" kwargs (Heap s wd)
            = (Ok (default "grey" (last_match sample_groups "both")),
               Heap s wd))
  ∧ (∀ g wd, GroupedColorFunc_init sample_single_color_func sample_groups
               "grey" = Ok g →
       GroupedColorFunc_get_color_func "both" (Heap g wd)
       = (sample_single_color_func
            (default "grey" (first_match sample_groups "both")),
          Heap g wd)).
Proof.
  exact (last_write_wins_simple_only sample_single_color_func
           sample_groups "grey" "both").
Defined.

Lemma eager_and_lazy_validation_witness :
  GroupedColorFunc_init sample_single_color_func
    [("green", ["simple"]); ("", ["hard"])] "grey"
  = Raise InvalidColorSpec
  ∧ ∃ s, SimpleGroupedColorFunc_init [("green", ["simple"]); ("", ["hard"])]
           "grey" = Ok s
         ∧ word_to_color s !! "hard" = Some ""
         ∧ SimpleGroupedColorFunc_call (Value := nat) "hard" ∅ (Heap s 0)
           = (Ok "", Heap s 0)
         ∧ apply_color sample_parse_color
             (SimpleGroupedColorFunc_call (Value := nat) "hard" ∅) (Heap s 0)
           = (Raise InvalidColorSpec, Heap s 0).
Proof.
  destruct (eager_and_lazy_validation sample_single_color_func
              sample_parse_color [("green", ["simple"]); ("", ["hard"])]
              "grey")
    as (_ & _ & (s & Hs & _ & Hindex & _ & Hcall) & Hboth).
  split.
  - apply (Hboth "hard").
    + intros c. unfold sample_single_color_func, sample_parse_color.
      by destruct (decide (c = "")).
    + intros c e. unfold sample_single_color_func.
      destruct (decide (c = "")); [by intros [= <-]|done].
    + reflexivity.
  - exists s. split; [exact Hs|]. split; [exact (Hindex "hard")|].
    destruct (Hcall "hard" ∅ 0) as (Hc & _ & Ha).
    split; [exact Hc|exact Ha].
Defined.

Lemma repeated_resolution_stable_witness :
  ∃ v, call_each
         (replicate 3 (SimpleGroupedColorFunc_call (Value := nat) "easy" ∅))
         (Heap {| word_to_color := invert_groups sample_groups ∅;
                  default_color := "grey" |} 0)
       = (replicate 3 (Ok v),
          Heap {| word_to_color := invert_groups sample_groups ∅;
                  default_color := "grey" |} 0).
Proof.
  apply (proj1 (repeated_resolution_stable (World := nat) "easy" ∅ 3)).
Defined.

Lemma flat_lookup_is_first_match_witness :
  (∃ s, SimpleGroupedColorFunc_init
          [("green", ["simple"; "easy"]); ("red", ["complex"; "hard"])] "grey"
        = Ok s
        ∧ ∀ (kwargs : Kwargs nat) (wd : nat),
            SimpleGroupedColorFunc_call "hard" kwargs (Heap s wd)
            = (Ok (first_match_or_default
                     [("green", ["simple"; "easy"]);
                      ("red", ["complex"; "hard"])] "grey" "hard"),
               Heap s wd))
  ∧ (∀ g wd, GroupedColorFunc_init sample_single_color_func
               [("green", ["simple"; "easy"]); ("red", ["complex"; "hard"])]
               "grey" = Ok g →
       GroupedColorFunc_get_color_func "hard" (Heap g wd)
       = (sample_single_color_func
            (first_match_or_default
               [("green", ["simple"; "easy"]); ("red", ["complex"; "hard"])]
               "grey" "hard"),
          Heap g wd)).
Proof.
  apply (flat_lookup_is_first_match sample_single_color_func
           [("green", ["simple"; "easy"]); ("red", ["complex"; "hard"])]
           "grey" "hard").
  intros i j p q word Hp Hq Hwp Hwq.
  destruct i as [|[|i]], j as [|[|j]]; simplify_eq/=; try done;
    exfalso; revert Hwp Hwq; rewrite !elem_of_cons, !elem_of_nil;
    intros [->|[->|[]]] [?|[?|[]]]; discriminate.
Defined.

Lemma metadata_ignored_witness :
  SimpleGroupedColorFunc_call "easy" (<["font_size" := 12]> ∅)
    (Heap {| word_to_color := invert_groups sample_groups ∅;
             default_color := "grey" |} 0)
  = SimpleGroupedColorFunc_call "easy" (<["orientation" := 2]> ∅)
      (Heap {| word_to_color := invert_groups sample_groups ∅;
               default_color := "grey" |} 0).
Proof. apply (proj1 (metadata_ignored "easy")). Defined.

Lemma simple_resolution_total_witness :
  ∃ v, SimpleGroupedColorFunc_call (Value := nat) "banana" ∅
         (Heap {| word_to_color := invert_groups sample_groups ∅;
                  default_color := "grey" |} 0)
       = (Ok v, Heap {| word_to_color := invert_groups sample_groups ∅;
                        default_color := "grey" |} 0).
Proof. apply (proj2 simple_resolution_total). Defined.

Lemma resolver_never_mutated_witness :
  self (GroupedColorFunc_call "easy" ∅ (Heap sample_grouped 0)).2
  = sample_grouped.
Proof.
  apply (proj1 (proj2 (proj2 resolver_never_mutated)) "easy" ∅
           (Heap sample_grouped 0)).
Defined.

Lemma first_match_wins_shade_aware_witness :
  (∃ f, sample_single_color_func "green" = Ok f
        ∧ ∀ wd, GroupedColorFunc_get_color_func "both" (Heap sample_grouped wd)
                = (Ok f, Heap sample_grouped wd))
  ∧ (∃ s, SimpleGroupedColorFunc_init sample_groups "grey" = Ok s
          ∧ ∀ (kwargs : Kwargs nat) (wd : nat),
              SimpleGroupedColorFunc_call "both" kwargs (Heap s wd)
              = (Ok "red", Heap s wd))
  ∧ "green" ≠ "red".
Proof.
  apply (first_match_wins_shade_aware sample_single_color_func
           [] "green" ["simple"; "easy"; "both"] []
           "red" ["complex"; "hard"; "both"] [] "grey" "both" sample_grouped);
    first [reflexivity | by_evaluation].
Defined.

(** ** Further properties of the two classes and of the script *)

Example text_as_in_the_script :
  String.length Script.text = 779
  ∧ length (filter (λ c, c = Ascii.ascii_of_nat 194)
              (String.list_ascii_of_string Script.text)) = 10
  ∧ length (filter (λ c, c = Ascii.ascii_of_nat 10)
              (String.list_ascii_of_string Script.text)) = 92
  ∧ is_prefix "signalp" (lower Script.text) = true.
Proof. by vm_compute. Qed.

Section MoreIndex.
Implicit Types (items : list (string * list string)) (word color : string).

Lemma groups_of_nil items word :
  groups_of items word = [] ↔ Forall (λ p, word ∉ p.2) items.
Proof.
  split; [|apply groups_of_absent].
  unfold groups_of. induction items as [|p items IH]; [done|].
  rewrite filter_cons. destruct (decide (word ∈ p.2)); [done|].
  intros H. constructor; [done|]. by apply IH.
Qed.

Lemma last_match_None items word :
  last_match items word = None ↔ Forall (λ p, word ∉ p.2) items.
Proof.
  rewrite <- groups_of_nil. unfold last_match.
  rewrite fmap_None. apply last_None.
Qed.

Lemma first_match_None items word :
  first_match items word = None ↔ Forall (λ p, word ∉ p.2) items.
Proof.
  rewrite <- groups_of_nil. unfold first_match.
  rewrite fmap_None. apply head_None.
Qed.

Lemma last_match_Some items word color :
  last_match items word = Some color →
  ∃ words, (color, words) ∈ items ∧ word ∈ words.
Proof.
  unfold last_match.
  destruct (last (groups_of items word)) as [[c ws]|] eqn:Hp; [|done].
  intros [= <-]. apply last_Some_elem_of in Hp.
  apply list_elem_of_filter in Hp as [Hw Hp]. by exists ws.
Qed.

Lemma groups_of_same_members items items' word :
  Forall2 (λ p q, p.1 = q.1 ∧ ∀ w, w ∈ p.2 ↔ w ∈ q.2) items items' →
  (groups_of items word).*1 = (groups_of items' word).*1.
Proof.
  unfold groups_of.
  induction 1 as [|[c ws] [c' ws'] items items' [Hc Hw] _ IH]; [done|].
  cbn [fst snd] in *. subst c'. rewrite !filter_cons. cbn [fst snd].
  destruct (decide (word ∈ ws)) as [Hin|Hnin].
  - rewrite decide_True by (by apply Hw). rewrite !fmap_cons. by rewrite IH.
  - by rewrite decide_False by (by rewrite <- Hw).
Qed.

Lemma fst_last {A B} (l : list (A * B)) : fst <$> last l = last l.*1.
Proof. by rewrite fmap_last. Qed.

Lemma fst_head {A B} (l : list (A * B)) : fst <$> head l = head l.*1.
Proof. by destruct l. Qed.

Lemma unambiguous_groups_short items word :
  unambiguous items → length (groups_of items word) ≤ 1.
Proof.
  induction items as [|[color words] items IH]; intros Hun; [simpl; lia|].
  unfold groups_of in *. rewrite filter_cons. simpl.
  destruct (decide (word ∈ words)) as [Hin|Hnin].
  - assert (Habs : Forall (λ p, word ∉ p.2) items).
    { apply Forall_lookup_2. intros j q Hq Hw.
      by specialize (Hun 0 (S j) (color, words) q word eq_refl Hq Hin Hw). }
    apply groups_of_absent in Habs. unfold groups_of in Habs.
    rewrite Habs. simpl. lia.
  - apply IH. intros i j p q w Hp Hq Hwp Hwq.
    by specialize (Hun (S i) (S j) p q w Hp Hq Hwp Hwq) as [= ->].
Qed.

Lemma groups_of_Permutation items items' word :
  items ≡ₚ items' → unambiguous items →
  groups_of items word = groups_of items' word.
Proof.
  intros Hperm Hun. pose proof (unambiguous_groups_short items word Hun) as Hlen.
  assert (Hg : groups_of items word ≡ₚ groups_of items' word)
    by (unfold groups_of; by rewrite Hperm).
  destruct (groups_of items word) as [|p [|? ?]]; simpl in Hlen; [| |lia].
  - by apply Permutation_nil_l in Hg.
  - by apply Permutation_singleton_l in Hg.
Qed.

Lemma groups_disjoint_unambiguous items :
  groups_disjoint items → unambiguous items.
Proof.
  induction items as [|[color words] items IH]; intros Hdis.
  - intros i j p q w Hp. by rewrite lookup_nil in Hp.
  - destruct Hdis as [Hhead Hrest]. specialize (IH Hrest).
    assert (Hno : ∀ j q w, items !! j = Some q → w ∈ words → w ∈ q.2 → False).
    { intros j q w Hq Hw Hwq.
      rewrite Forall_lookup in Hhead. specialize (Hhead j q Hq).
      rewrite Forall_forall in Hhead. by apply (Hhead w). }
    intros [|i] [|j] p q w Hp Hq Hwp Hwq; simplify_eq/=; [done|..].
    + exfalso; eauto.
    + exfalso; eauto.
    + f_equal. by apply (IH i j p q w).
Qed.

Lemma is_prefix_app (w after : string) : is_prefix w (w +:+ after) = true.
Proof.
  induction w as [|c w IH]; [done|]. simpl.
  by rewrite bool_decide_eq_true_2.
Qed.

Lemma occurs_in_app (before w after : string) :
  occurs_in w (before +:+ w +:+ after) = true.
Proof.
  induction before as [|c before IH].
  - simpl. destruct (w +:+ after) eqn:E; simpl;
      rewrite <- E, is_prefix_app; done.
  - simpl. rewrite IH. apply orb_true_r.
Qed.

Lemma simple_init_same_last_match items items' dflt :
  (∀ word, last_match items word = last_match items' word) →
  SimpleGroupedColorFunc_init items dflt
  = SimpleGroupedColorFunc_init items' dflt.
Proof.
  intros Hsame. unfold SimpleGroupedColorFunc_init. do 2 f_equal.
  apply map_eq. intros word. by rewrite !invert_groups_lookup, Hsame.
Qed.

End MoreIndex.

Section More.
Context {Value World : Type}.
Variable get_single_color_func : string → result (color_func Value World).
Implicit Types (items : list (string * list string)) (word dflt : string).
Implicit Types (kwargs : Kwargs Value) (wd : World).
Implicit Types (s : SimpleGroupedColorFunc) (g : GroupedColorFunc Value World).

Lemma grouped_init_succeeds items dflt :
  (∃ g, GroupedColorFunc_init get_single_color_func items dflt = Ok g) ↔
  Forall (λ c, ∃ f, get_single_color_func c = Ok f) (items.*1 ++ [dflt]).
Proof.
  induction items as [|[color words] items IH].
  - rewrite grouped_init_nil. simpl. rewrite Forall_singleton.
    destruct (get_single_color_func dflt) as [f|e]; split.
    + intros _. by exists f.
    + intros _. by eexists.
    + by intros [? ?].
    + by intros [? ?].
  - rewrite grouped_init_cons, fmap_cons, <- app_comm_cons, Forall_cons.
    rewrite <- IH. cbn [fst].
    destruct (get_single_color_func color) as [f|e].
    + destruct (GroupedColorFunc_init _ items dflt) as [g|e]; split.
      * intros _. split; by eexists.
      * by eexists.
      * by intros [? ?].
      * by intros [_ [? ?]].
    + split; [by intros [? ?]|by intros [[? ?] _]].
Qed.

Lemma grouped_select_fst items dflt g word wd :
  GroupedColorFunc_init get_single_color_func items dflt = Ok g →
  (GroupedColorFunc_get_color_func word (Heap g wd)).1
  = get_single_color_func (default dflt (first_match items word)).
Proof.
  intros Hg. rewrite (grouped_select _ _ _ _ _ _ Hg).
  by rewrite first_match_or_default_spec.
Qed.

Lemma simple_call_fst items dflt s word kwargs wd :
  SimpleGroupedColorFunc_init items dflt = Ok s →
  (SimpleGroupedColorFunc_call word kwargs (Heap s wd)).1
  = Ok (default dflt (last_match items word)).
Proof.
  intros Hs.
  destruct (simple_resolve items dflt word kwargs wd) as (s' & Hs' & Hcall).
  assert (s' = s) as -> by congruence. by rewrite Hcall.
Qed.

(** X1. The index of the simple variant is sound and complete for the
    mapping: an entry [word ↦ color] comes from a group of that colour
    containing the word, and a word has no entry exactly when no group
    contains it. *)
Theorem index_sound_and_complete items dflt s word :
  SimpleGroupedColorFunc_init items dflt = Ok s →
  (∀ color, word_to_color s !! word = Some color →
            ∃ words, (color, words) ∈ items ∧ word ∈ words)
  ∧ (word_to_color s !! word = None ↔ Forall (λ p, word ∉ p.2) items)
  ∧ (word ∈ dom (word_to_color s) ↔ Exists (λ p, word ∈ p.2) items).
Proof.
  intros [= <-]. cbn [word_to_color].
  assert (Hlook : invert_groups items ∅ !! word = last_match items word).
  { rewrite invert_groups_lookup, lookup_empty.
    by destruct (last_match items word). }
  split; [|split].
  - intros color. rewrite Hlook. apply last_match_Some.
  - rewrite Hlook. apply last_match_None.
  - rewrite elem_of_dom, <- not_eq_None_Some, Hlook, last_match_None.
    split.
    + intros Hn. apply not_Forall_Exists in Hn; [|apply _].
      eapply Exists_impl; [exact Hn|]. intros p Hp. simpl in Hp.
      by destruct (decide (word ∈ p.2)).
    + intros Hex Hall. apply Exists_exists in Hex as (p & Hp & Hw).
      rewrite Forall_forall in Hall. by apply (Hall p).
Qed.

(** X2. Both constructors use each word list only as a set: two mappings
    with the same colours in the same order, whose word lists have the same
    members, give the same simple resolver and the same outcome of the
    shade-aware construction; repeating or reordering the words of a group
    changes nothing. *)
Theorem word_lists_matter_as_sets items items' dflt :
  Forall2 (λ p q, p.1 = q.1 ∧ ∀ w, w ∈ p.2 ↔ w ∈ q.2) items items' →
  SimpleGroupedColorFunc_init items dflt
  = SimpleGroupedColorFunc_init items' dflt
  ∧ GroupedColorFunc_init get_single_color_func items dflt
    = GroupedColorFunc_init get_single_color_func items' dflt.
Proof.
  intros Hsame. split.
  - apply simple_init_same_last_match. intros word. unfold last_match.
    by rewrite !fst_last, (groups_of_same_members _ _ _ Hsame).
  - induction Hsame as [|[c ws] [c' ws'] items items' [Hc Hw] _ IH].
    + done.
    + simpl in Hc, Hw. subst c'. rewrite !grouped_init_cons, IH.
      replace (list_to_set (C := gset string) ws')
        with (list_to_set (C := gset string) ws); [done|].
      apply set_eq. intros w. by rewrite !elem_of_list_to_set.
Qed.

(** X3. When no word is in two groups, the order in which the mapping is
    iterated does not matter: a reordered mapping gives the same simple
    resolver, the shade-aware construction succeeds for both or for
    neither, and when it succeeds the same colour function is selected for
    every word. *)
Theorem iteration_order_irrelevant_when_unambiguous items items' dflt :
  items ≡ₚ items' → unambiguous items →
  SimpleGroupedColorFunc_init items dflt
  = SimpleGroupedColorFunc_init items' dflt
  ∧ ((∃ g, GroupedColorFunc_init get_single_color_func items dflt = Ok g)
     ↔ ∃ g', GroupedColorFunc_init get_single_color_func items' dflt = Ok g')
  ∧ ∀ g g' word wd,
      GroupedColorFunc_init get_single_color_func items dflt = Ok g →
      GroupedColorFunc_init get_single_color_func items' dflt = Ok g' →
      (GroupedColorFunc_get_color_func word (Heap g wd)).1
      = (GroupedColorFunc_get_color_func word (Heap g' wd)).1.
Proof.
  intros Hperm Hun. split; [|split].
  - apply simple_init_same_last_match. intros word. unfold last_match.
    by rewrite (groups_of_Permutation _ _ _ Hperm Hun).
  - rewrite !grouped_init_succeeds. by rewrite Hperm.
  - intros g g' word wd Hg Hg'.
    rewrite (grouped_select_fst _ _ _ _ _ Hg),
      (grouped_select_fst _ _ _ _ _ Hg').
    unfold first_match. by rewrite (groups_of_Permutation _ _ _ Hperm Hun).
Qed.

(** X4. A group added at the end of the mapping overrides in the simple
    variant: its words resolve to its colour, whatever groups held them
    before, and every other word resolves as without it. *)
Theorem appended_group_overrides_simple items color (words : list string)
    dflt s s' word kwargs wd :
  SimpleGroupedColorFunc_init items dflt = Ok s →
  SimpleGroupedColorFunc_init (items ++ [(color, words)]) dflt = Ok s' →
  (SimpleGroupedColorFunc_call word kwargs (Heap s' wd)).1
  = if decide (word ∈ words) then Ok color
    else (SimpleGroupedColorFunc_call word kwargs (Heap s wd)).1.
Proof.
  intros Hs Hs'.
  rewrite (simple_call_fst _ _ _ _ _ _ Hs), (simple_call_fst _ _ _ _ _ _ Hs').
  unfold last_match, groups_of. rewrite filter_app, filter_cons, filter_nil.
  cbn [snd]. destruct (decide (word ∈ words)).
  - by rewrite last_snoc.
  - by rewrite app_nil_r.
Qed.

(** X5. In the shade-aware variant a group added at the end of the mapping
    never overrides: its colour function is selected only for those of its
    words that no earlier group contains, and every other word selects what
    it selected without the group. *)
Theorem appended_group_only_fills_shade_aware items color
    (words : list string) dflt g g' word wd :
  GroupedColorFunc_init get_single_color_func items dflt = Ok g →
  GroupedColorFunc_init get_single_color_func (items ++ [(color, words)]) dflt
  = Ok g' →
  ∃ f, get_single_color_func color = Ok f
       ∧ (GroupedColorFunc_get_color_func word (Heap g' wd)).1
         = if decide (word ∈ words ∧ Forall (λ p, word ∉ p.2) items)
           then Ok f
           else (GroupedColorFunc_get_color_func word (Heap g wd)).1.
Proof.
  intros Hg Hg'.
  assert (∃ f, get_single_color_func color = Ok f) as [f Hf].
  { assert (Hall : ∃ g', GroupedColorFunc_init get_single_color_func
                           (items ++ [(color, words)]) dflt = Ok g')
      by eauto.
    apply grouped_init_succeeds in Hall.
    rewrite fmap_app, !Forall_app, fmap_cons, Forall_cons in Hall.
    by destruct Hall as [[_ [? _]] _]. }
  exists f. split; [done|].
  rewrite (grouped_select_fst _ _ _ _ _ Hg), (grouped_select_fst _ _ _ _ _ Hg').
  pose proof (first_match_None items word) as Hnone.
  unfold first_match, groups_of in *.
  rewrite filter_app, filter_cons, filter_nil.
  cbn [snd]. destruct (filter _ items) as [|p ps] eqn:Hitems.
  - assert (Hall : Forall (λ p, word ∉ p.2) items) by by apply Hnone.
    destruct (decide (word ∈ words)).
    + rewrite decide_True by (split; assumption). simpl. by rewrite Hf.
    + by rewrite decide_False by (by intros [? _]).
  - destruct (decide (word ∈ words ∧ _)) as [[_ Hall]|_];
      [by apply Hnone in Hall|].
    by destruct (decide (word ∈ words)).
Qed.

(** X6. A group without words colours nothing, yet the shade-aware variant
    still converts its colour identifier.  Dropping the empty groups leaves
    the simple resolver as it is; where the shade-aware construction
    succeeds it also succeeds without them and selects the same function
    for every word; but an empty group whose identifier is rejected makes
    that construction raise. *)
Theorem empty_groups_only_validated items dflt :
  SimpleGroupedColorFunc_init (filter (λ p, p.2 ≠ []) items) dflt
  = SimpleGroupedColorFunc_init items dflt
  ∧ (∀ g, GroupedColorFunc_init get_single_color_func items dflt = Ok g →
       ∃ g', GroupedColorFunc_init get_single_color_func
               (filter (λ p, p.2 ≠ []) items) dflt = Ok g'
             ∧ ∀ word wd,
                 (GroupedColorFunc_get_color_func word (Heap g' wd)).1
                 = (GroupedColorFunc_get_color_func word (Heap g wd)).1)
  ∧ (∀ before color after e,
       items = before ++ (color, []) :: after →
       Forall (λ c, ∃ f, get_single_color_func c = Ok f) before.*1 →
       get_single_color_func color = Raise e →
       GroupedColorFunc_init get_single_color_func items dflt = Raise e).
Proof.
  assert (Hgroups : ∀ word, groups_of (filter (λ p, p.2 ≠ []) items) word
                            = groups_of items word).
  { intros word. unfold groups_of. rewrite list_filter_filter.
    apply list_filter_iff. intros p. split; [by intros [? _]|].
    intros Hw. split; [done|]. intros Hnil. rewrite Hnil in Hw.
    by apply not_elem_of_nil in Hw. }
  split; [|split].
  - apply simple_init_same_last_match. intros word. unfold last_match.
    by rewrite Hgroups.
  - intros g Hg.
    assert (Hok : ∃ g', GroupedColorFunc_init get_single_color_func
                          (filter (λ p, p.2 ≠ []) items) dflt = Ok g').
    { apply grouped_init_succeeds.
      assert (Hall : ∃ g, GroupedColorFunc_init get_single_color_func
                            items dflt = Ok g) by eauto.
      apply grouped_init_succeeds in Hall.
      apply Forall_app in Hall as [Hitems Hd]. apply Forall_app. split; [|done].
      rewrite Forall_fmap in Hitems |- *.
      rewrite Forall_forall in Hitems. apply Forall_forall.
      intros p [_ Hp]%list_elem_of_filter. by apply Hitems. }
    destruct Hok as [g' Hg']. exists g'. split; [done|]. intros word wd.
    rewrite (grouped_select_fst _ _ _ _ _ Hg),
      (grouped_select_fst _ _ _ _ _ Hg').
    unfold first_match. by rewrite Hgroups.
  - intros before color after e -> Hbefore He.
    apply grouped_init_Raise.
    exists before.*1, color, (after.*1 ++ [dflt]).
    split; [|done]. by rewrite fmap_app, fmap_cons, <- app_assoc.
Qed.

(** X7. The shade-aware construction succeeds exactly when every colour
    identifier of the mapping and the default are accepted; the resolver it
    returns then has one entry per group, in iteration order, holding the
    colour function made for the group's identifier and the set of the
    group's words, and the colour function made for the default. *)
Theorem construction_succeeds_iff_all_accepted items dflt :
  ((∃ g, GroupedColorFunc_init get_single_color_func items dflt = Ok g) ↔
   Forall (λ c, ∃ f, get_single_color_func c = Ok f) (items.*1 ++ [dflt]))
  ∧ ∀ g, GroupedColorFunc_init get_single_color_func items dflt = Ok g →
      length (color_func_to_words g) = length items
      ∧ get_single_color_func dflt = Ok (default_color_func g)
      ∧ ∀ i color (words : list string),
          items !! i = Some (color, words) →
          ∃ f, get_single_color_func color = Ok f
               ∧ color_func_to_words g !! i = Some (f, list_to_set words).
Proof.
  split; [apply grouped_init_succeeds|].
  intros g [Hk Hd]%grouped_init_Ok. split; [|split; [done|]].
  - symmetry. by eapply Forall2_length.
  - intros i color words Hi.
    destruct (Forall2_lookup_l _ _ _ _ _ Hk Hi) as ([f st] & Hq & Hf & Hst).
    simpl in *. subst st. by exists f.
Qed.

(** X8. The two variants agree on which words are grouped, even where they
    disagree on the group: for the same mapping the simple index has no
    entry for a word exactly when no word set of the shade-aware resolver
    contains it, and then both answer with the default. *)
Theorem variants_agree_on_grouped_words items dflt s g word :
  SimpleGroupedColorFunc_init items dflt = Ok s →
  GroupedColorFunc_init get_single_color_func items dflt = Ok g →
  (word_to_color s !! word = None
   ↔ Forall (λ q, word ∉ q.2) (color_func_to_words g))
  ∧ (word_to_color s !! word = None →
     ∀ kwargs wd,
       SimpleGroupedColorFunc_call word kwargs (Heap s wd)
       = (Ok dflt, Heap s wd)
       ∧ GroupedColorFunc_get_color_func word (Heap g wd)
         = (Ok (default_color_func g), Heap g wd)).
Proof.
  intros Hs Hg.
  assert (Hnone : word_to_color s !! word = None
                  ↔ Forall (λ p, word ∉ p.2) items).
  { injection Hs as <-. cbn [word_to_color].
    rewrite invert_groups_lookup, lookup_empty, <- last_match_None.
    by destruct (last_match items word). }
  split.
  - rewrite Hnone. clear Hs Hnone. apply grouped_init_Ok in Hg as [Hk _].
    induction Hk as [|[c ws] [f st] items' k [_ Hst] _ IH];
      [done|]. simpl in Hst. subst st.
    rewrite !Forall_cons, IH. simpl. by rewrite elem_of_list_to_set.
  - intros Habs%Hnone kwargs wd. split.
    + destruct (simple_resolve items dflt word kwargs wd)
        as (s' & Hs' & Hcall).
      assert (s' = s) as -> by congruence. rewrite Hcall.
      apply last_match_None in Habs. by rewrite Habs.
    + rewrite (grouped_select _ _ _ _ _ wd Hg), first_match_or_default_spec.
      apply first_match_None in Habs. rewrite Habs. simpl.
      apply grouped_init_Ok in Hg as [_ ->]. done.
Qed.

End More.

Lemma script_mapping_disjoint : groups_disjoint Script.color_to_words.
Proof. repeat split; by_evaluation. Qed.

Lemma script_text_has_no_grouped_word :
  Forall (λ p, Forall (λ w, occurs_in w (lower Script.text) = false) p.2)
    Script.color_to_words.
Proof. by_evaluation. Qed.

(** X9. In the mapping of the script the keys are distinct and no word is in
    two groups, so the choice between the two variants the script offers
    changes shades only: for every word the colour function the shade-aware
    variant selects is the one made for the identifier the simple variant
    returns. *)
Theorem script_variants_agree {Value World : Type}
    (get_single_color_func : string → result (color_func Value World))
    (g : GroupedColorFunc Value World) (word : string) :
  Script.grouped_color_func get_single_color_func = Ok g →
  is_dict Script.color_to_words
  ∧ unambiguous Script.color_to_words
  ∧ ∃ s, SimpleGroupedColorFunc_init Script.color_to_words
           Script.default_color = Ok s
         ∧ ∀ (kwargs : Kwargs Value) (wd : World),
             ∃ color,
               SimpleGroupedColorFunc_call word kwargs (Heap s wd)
               = (Ok color, Heap s wd)
               ∧ GroupedColorFunc_get_color_func word (Heap g wd)
                 = (get_single_color_func color, Heap g wd).
Proof.
  intros Hg. split; [by_evaluation|].
  pose proof (groups_disjoint_unambiguous _ script_mapping_disjoint) as Hun.
  split; [done|]. eexists. split; [reflexivity|]. intros kwargs wd.
  destruct (simple_resolve Script.color_to_words Script.default_color
              word kwargs wd) as (s & [= <-] & Hcall).
  eexists. split; [exact Hcall|].
  rewrite (grouped_select _ _ _ _ _ wd Hg), first_match_or_default_spec.
  by rewrite (unambiguous_first_last _ _ Hun).
Qed.

(** X10. None of the words of the script's mapping occurs anywhere in the
    lower-cased text the cloud is generated from, so whatever piece of that
    text is passed as a word, the colour function the script registers
    selects, and calls, the default colour function, the one made for
    ["grey"]. *)
Theorem script_text_resolves_to_default {Value World : Type}
    (get_single_color_func : string → result (color_func Value World))
    (g : GroupedColorFunc Value World) (before word after : string) :
  lower Script.text = before +:+ word +:+ after →
  Script.grouped_color_func get_single_color_func = Ok g →
  get_single_color_func "grey" = Ok (default_color_func g)
  ∧ ∀ (kwargs : Kwargs Value) (wd : World),
      GroupedColorFunc_get_color_func word (Heap g wd)
      = (Ok (default_color_func g), Heap g wd)
      ∧ GroupedColorFunc_call word kwargs (Heap g wd)
        = call_color_func (default_color_func g) word kwargs (Heap g wd).
Proof.
  intros Htext Hg.
  assert (Habs : Forall (λ p, word ∉ p.2) Script.color_to_words).
  { eapply Forall_impl; [apply script_text_has_no_grouped_word|].
    intros p Hp Hw. rewrite Forall_forall in Hp. specialize (Hp word Hw).
    by rewrite Htext, occurs_in_app in Hp. }
  assert (Hsel := λ wd, grouped_select _ _ _ _ word wd Hg).
  apply first_match_None in Habs.
  rewrite first_match_or_default_spec, Habs in Hsel. simpl in Hsel.
  apply grouped_init_Ok in Hg as [_ Hd].
  change Script.default_color with "grey" in *. rewrite Hd in Hsel.
  split; [done|]. intros kwargs wd. split; [apply Hsel|].
  unfold GroupedColorFunc_call, bind. by rewrite Hsel.
Qed.

(** ** The further properties at concrete inputs *)

Lemma index_sound_and_complete_witness :
  "both" ∈ dom (invert_groups sample_groups ∅)
  ↔ Exists (λ p, "both" ∈ p.2) sample_groups.
Proof.
  apply (index_sound_and_complete sample_groups "grey"
           {| word_to_color := invert_groups sample_groups ∅;
              default_color := "grey" |} "both").
  reflexivity.
Defined.

Lemma word_lists_matter_as_sets_witness :
  SimpleGroupedColorFunc_init [("green", ["easy"; "simple"; "easy"])] "grey"
  = SimpleGroupedColorFunc_init [("green", ["simple"; "easy"])] "grey"
  ∧ GroupedColorFunc_init sample_single_color_func
      [("green", ["easy"; "simple"; "easy"])] "grey"
    = GroupedColorFunc_init sample_single_color_func
        [("green", ["simple"; "easy"])] "grey".
Proof.
  apply (word_lists_matter_as_sets sample_single_color_func).
  constructor; [|constructor]. split; [reflexivity|].
  intros w. simpl. rewrite !elem_of_cons, elem_of_nil. tauto.
Defined.

Lemma iteration_order_irrelevant_when_unambiguous_witness :
  SimpleGroupedColorFunc_init
    [("green", ["simple"; "easy"]); ("red", ["complex"; "hard"])] "grey"
  = SimpleGroupedColorFunc_init
      [("red", ["complex"; "hard"]); ("green", ["simple"; "easy"])] "grey".
Proof.
  apply (iteration_order_irrelevant_when_unambiguous sample_single_color_func
           [("green", ["simple"; "easy"]); ("red", ["complex"; "hard"])]
           [("red", ["complex"; "hard"]); ("green", ["simple"; "easy"])]
           "grey").
  - apply perm_swap.
  - apply groups_disjoint_unambiguous. repeat split; by_evaluation.
Defined.

Lemma appended_group_overrides_simple_witness :
  (SimpleGroupedColorFunc_call (Value := nat) "both" ∅
     (Heap {| word_to_color :=
                invert_groups ([("green", ["both"])] ++ [("red", ["both"])]) ∅;
              default_color := "grey" |} 0)).1
  = if decide ("both" ∈ ["both"]) then Ok "red"
    else (SimpleGroupedColorFunc_call (Value := nat) "both" ∅
            (Heap {| word_to_color := invert_groups [("green", ["both"])] ∅;
                     default_color := "grey" |} 0)).1.
Proof.
  apply (appended_group_overrides_simple [("green", ["both"])] "red" ["both"]
           "grey"); reflexivity.
Defined.

Lemma appended_group_only_fills_shade_aware_witness :
  ∃ f, sample_single_color_func "red" = Ok f
       ∧ (GroupedColorFunc_get_color_func "both" (Heap sample_grouped 0)).1
         = if decide ("both" ∈ ["complex"; "hard"; "both"]
                      ∧ Forall (λ p, "both" ∉ p.2)
                          [("green", ["simple"; "easy"; "both"])])
           then Ok f
           else (GroupedColorFunc_get_color_func "both"
                   (Heap {| color_func_to_words :=
                              [(sample_color_func "green",
                                list_to_set ["simple"; "easy"; "both"])];
                            default_color_func := sample_color_func "grey" |}
                      0)).1.
Proof.
  apply (appended_group_only_fills_shade_aware sample_single_color_func
           [("green", ["simple"; "easy"; "both"])]
           "red" ["complex"; "hard"; "both"] "grey"); reflexivity.
Defined.

Lemma empty_groups_only_validated_witness :
  SimpleGroupedColorFunc_init
    (filter (λ p, p.2 ≠ []) [("", []); ("green", ["simple"])]) "grey"
  = SimpleGroupedColorFunc_init [("", []); ("green", ["simple"])] "grey"
  ∧ GroupedColorFunc_init sample_single_color_func
      [("", []); ("green", ["simple"])] "grey"
    = Raise InvalidColorSpec.
Proof.
  pose proof (empty_groups_only_validated sample_single_color_func
                [("", []); ("green", ["simple"])] "grey") as (Hs & _ & Hraise).
  split; [exact Hs|].
  apply (Hraise [] "" [("green", ["simple"])]); [reflexivity|constructor|].
  reflexivity.
Defined.

Lemma construction_succeeds_iff_all_accepted_witness :
  length (color_func_to_words sample_grouped) = length sample_groups
  ∧ sample_single_color_func "grey" = Ok (default_color_func sample_grouped)
  ∧ ∀ i color (words : list string),
      sample_groups !! i = Some (color, words) →
      ∃ f, sample_single_color_func color = Ok f
           ∧ color_func_to_words sample_grouped !! i
             = Some (f, list_to_set words).
Proof.
  apply (proj2 (construction_succeeds_iff_all_accepted
                  sample_single_color_func sample_groups "grey")).
  reflexivity.
Defined.

Lemma variants_agree_on_grouped_words_witness :
  invert_groups sample_groups ∅ !! "banana" = None
  ↔ Forall (λ q, "banana" ∉ q.2) (color_func_to_words sample_grouped).
Proof.
  apply (variants_agree_on_grouped_words sample_single_color_func
           sample_groups "grey"
           {| word_to_color := invert_groups sample_groups ∅;
              default_color := "grey" |} sample_grouped "banana");
    reflexivity.
Defined.

Lemma script_variants_agree_witness :
  is_dict Script.color_to_words
  ∧ unambiguous Script.color_to_words
  ∧ ∃ s, SimpleGroupedColorFunc_init Script.color_to_words
           Script.default_color = Ok s
         ∧ ∀ (kwargs : Kwargs nat) (wd : nat),
             ∃ color,
               SimpleGroupedColorFunc_call "easy" kwargs (Heap s wd)
               = (Ok color, Heap s wd)
               ∧ GroupedColorFunc_get_color_func "easy"
                   (Heap sample_script_grouped wd)
                 = (sample_single_color_func color,
                    Heap sample_script_grouped wd).
Proof.
  apply (script_variants_agree sample_single_color_func
           sample_script_grouped "easy").
  reflexivity.
Defined.

Lemma script_text_resolves_to_default_witness :
  sample_single_color_func "grey"
  = Ok (default_color_func sample_script_grouped)
  ∧ ∀ (kwargs : Kwargs nat) (wd : nat),
      GroupedColorFunc_get_color_func "sift" (Heap sample_script_grouped wd)
      = (Ok (default_color_func sample_script_grouped),
         Heap sample_script_grouped wd)
      ∧ GroupedColorFunc_call "sift" kwargs (Heap sample_script_grouped wd)
        = call_color_func (default_color_func sample_script_grouped)
            "sift" kwargs (Heap sample_script_grouped wd).
Proof.
  apply (script_text_resolves_to_default sample_single_color_func
           sample_script_grouped
           (String.substring 0 8 (lower Script.text)) "sift"
           (String.substring 12 767 (lower Script.text)));
    [vm_compute|]; reflexivity.
Defined.
